(** * Shallow embedding of examples/ex_eigs_dseq.c (PRIMME example driver)

    The example defines the 1-D Laplacian block matrix-vector product
    [LaplacianMatrixMatvec], the diagonal preconditioner
    [LaplacianApplyPreconditioner] and a driver [main] that configures
    PRIMME, calls [dprimme] and reports the results.

    Memory: a flat array of doubles addressed by [Z] (pointer arithmetic on
    [double *] counts in doubles), as a total map with point update.  The
    kernels are written over an abstract type [V] of doubles with the
    operations the C code uses, so everything proved in the generic section
    holds for IEEE doubles as well; the numeric claims are then instantiated
    at [Q] (every finite double is a rational, and [Q] gives exact
    arithmetic). *)

From Stdlib Require Import ZArith QArith Lia Lqa List String Bool.
Import ListNotations.
Open Scope Z_scope.

(** ** The parts of [primme_params] the example touches *)

Inductive primme_target := primme_smallest | primme_largest
  | primme_closest_geq | primme_closest_leq | primme_closest_abs
  | primme_largest_abs.

Inductive primme_preset_method := PRIMME_DEFAULT_METHOD | PRIMME_DYNAMIC
  | PRIMME_DEFAULT_MIN_TIME | PRIMME_DEFAULT_MIN_MATVECS
  | PRIMME_LOBPCG_OrthoBasis_Window.

(** The callbacks the example installs. *)
Inductive callback := Cb_LaplacianMatrixMatvec | Cb_LaplacianApplyPreconditioner.

Record primme_stats := {
  numOuterIterations : Z; numRestarts : Z; numMatvecs : Z; numPreconds : Z }.

Record primme_params := {
  n : Z;
  numEvals : Z;
  eps : Q;
  target : primme_target;
  matrixMatvec : option callback;
  applyPreconditioner : option callback;
  correctionParams_precondition : Z;
  method : primme_preset_method;
  locking : Z;
  intWork : option (Z -> Z);            (** [NULL] is [None] *)
  dynamicMethodSwitch : Z;
  initSize : Z;
  aNorm : Q;
  stats : primme_stats }.

(** ** Memory and loops *)

Section Kernels.

Variable V : Type.                       (** [double] *)
Variables (d_zero d_two d_minus_one : V). (** [0.0], [2.0] (and [2.]), [-1.0] *)
Variables (d_add d_mul d_div : V -> V -> V).

Definition mem := Z -> V.

Definition upd (m : mem) (a : Z) (v : V) : mem :=
  fun a' => if Z.eqb a' a then v else m a'.

(** [for (k = 0; k < K; k++) body]: [loop_to K body m] runs [body] at
    [0, 1, ..., K-1] in that order. *)
Fixpoint loop_to (k : nat) (body : mem -> Z -> mem) (m : mem) : mem :=
  match k with
  | O => m
  | S k' => body (loop_to k' body m) (Z.of_nat k')
  end.

(** One iteration of the row loop of [LaplacianMatrixMatvec]:
<<
         yvec[row] = 0.0;
         if (row-1 >= 0) yvec[row] += -1.0*xvec[row-1];
         yvec[row] += 2.0*xvec[row];
         if (row+1 < primme->n) yvec[row] += -1.0*xvec[row+1];
>>
    Every read goes to the current memory, so aliasing of [x] and [y] is
    modelled. *)
Definition matvec_row (nn xvec yvec : Z) (m : mem) (row : Z) : mem :=
  let m1 := upd m (yvec + row) d_zero in
  let m2 := if row - 1 >=? 0
            then upd m1 (yvec + row)
                   (d_add (m1 (yvec + row)) (d_mul d_minus_one (m1 (xvec + (row - 1)))))
            else m1 in
  let m3 := upd m2 (yvec + row)
              (d_add (m2 (yvec + row)) (d_mul d_two (m2 (xvec + row)))) in
  if row + 1 <? nn
  then upd m3 (yvec + row)
         (d_add (m3 (yvec + row)) (d_mul d_minus_one (m3 (xvec + (row + 1)))))
  else m3.

(** [void LaplacianMatrixMatvec(x, ldx, y, ldy, blockSize, primme, err)]:
    returns the memory after the call and the value stored in [*err]. *)
Definition LaplacianMatrixMatvec (x ldx y ldy blockSize : Z) (primme : primme_params)
    (m : mem) : mem * Z :=
  let m' :=
    loop_to (Z.to_nat blockSize)
      (fun m i =>
         let xvec := x + ldx * i in
         let yvec := y + ldy * i in
         loop_to (Z.to_nat (n primme)) (matvec_row (n primme) xvec yvec) m)
      m in
  (m', 0).

(** Row loop of [LaplacianApplyPreconditioner]: [yvec[row] = xvec[row]/2.;] *)
Definition precond_row (xvec yvec : Z) (m : mem) (row : Z) : mem :=
  upd m (yvec + row) (d_div (m (xvec + row)) d_two).

Definition LaplacianApplyPreconditioner (x ldx y ldy blockSize : Z)
    (primme : primme_params) (m : mem) : mem * Z :=
  let m' :=
    loop_to (Z.to_nat blockSize)
      (fun m i =>
         let xvec := x + ldx * i in
         let yvec := y + ldy * i in
         loop_to (Z.to_nat (n primme)) (precond_row xvec yvec) m)
      m in
  (m', 0).

(** Calling a kernel [b] times with block width 1, on the [i]-th column of
    [x] and of [y], one call after the other on the same memory. *)
Definition calls_one_at_a_time
    (f : Z -> Z -> Z -> Z -> Z -> primme_params -> mem -> mem * Z)
    (x ldx y ldy b : Z) (primme : primme_params) (m : mem) : mem :=
  loop_to (Z.to_nat b) (fun m i => fst (f (x + ldx * i) ldx (y + ldy * i) ldy 1 primme m)) m.

(** The row loops of the two kernels, for one column. *)
Definition matvec_col (nn xv yv : Z) (m : mem) : mem :=
  loop_to (Z.to_nat nn) (matvec_row nn xv yv) m.
Definition precond_col (nn xv yv : Z) (m : mem) : mem :=
  loop_to (Z.to_nat nn) (precond_row xv yv) m.

(** The outer loop of both kernels, for a column routine [col xvec yvec]. *)
Definition block (col : Z -> Z -> mem -> mem) (x ldx y ldy b : Z) (m : mem) : mem :=
  loop_to (Z.to_nat b) (fun m i => col (x + ldx * i) (y + ldy * i) m) m.

(** The value the row loop of [LaplacianMatrixMatvec] stores in [yvec[row]],
    as a function of the input column [xr] (read only where the C code reads). *)
Definition lap_val (nn : Z) (xr : Z -> V) (row : Z) : V :=
  let a1 := if row - 1 >=? 0 then d_add d_zero (d_mul d_minus_one (xr (row - 1)))
            else d_zero in
  let a2 := d_add a1 (d_mul d_two (xr row)) in
  if row + 1 <? nn then d_add a2 (d_mul d_minus_one (xr (row + 1))) else a2.

(** Addresses written by a call: [y + ldy*i + row], [0 <= i < b], [0 <= row < n]. *)
Definition in_output_block (nn y ldy b a : Z) : Prop :=
  exists i row, 0 <= i < b /\ 0 <= row < nn /\ a = y + ldy * i + row.

(** The input block and the output block do not share a cell. *)
Definition blocks_disjoint (nn x ldx y ldy b : Z) : Prop :=
  forall i j r s, 0 <= i < b -> 0 <= j < b -> 0 <= r < nn -> 0 <= s < nn ->
    x + ldx * j + s <> y + ldy * i + r.

End Kernels.

Arguments upd {V}.
Arguments loop_to {V}.
Arguments calls_one_at_a_time {V}.
Arguments block {V}.

(** ** The driver [main] *)

(** Field assignments [primme.f = v] on the configuration part of the struct. *)
Definition with_config (p : primme_params) (n' numEvals' : Z) (eps' : Q)
    (target' : primme_target) (mv pc : option callback) (prec : Z)
    (meth : primme_preset_method) : primme_params :=
  {| n := n'; numEvals := numEvals'; eps := eps'; target := target';
     matrixMatvec := mv; applyPreconditioner := pc;
     correctionParams_precondition := prec; method := meth;
     locking := locking p; intWork := intWork p;
     dynamicMethodSwitch := dynamicMethodSwitch p; initSize := initSize p;
     aNorm := aNorm p; stats := stats p |}.

Definition set_n (p : primme_params) (v : Z) : primme_params :=
  with_config p v (numEvals p) (eps p) (target p) (matrixMatvec p)
    (applyPreconditioner p) (correctionParams_precondition p) (method p).
Definition set_numEvals (p : primme_params) (v : Z) : primme_params :=
  with_config p (n p) v (eps p) (target p) (matrixMatvec p)
    (applyPreconditioner p) (correctionParams_precondition p) (method p).
Definition set_eps (p : primme_params) (v : Q) : primme_params :=
  with_config p (n p) (numEvals p) v (target p) (matrixMatvec p)
    (applyPreconditioner p) (correctionParams_precondition p) (method p).
Definition set_target (p : primme_params) (v : primme_target) : primme_params :=
  with_config p (n p) (numEvals p) (eps p) v (matrixMatvec p)
    (applyPreconditioner p) (correctionParams_precondition p) (method p).
Definition set_matrixMatvec (p : primme_params) (v : option callback) : primme_params :=
  with_config p (n p) (numEvals p) (eps p) (target p) v
    (applyPreconditioner p) (correctionParams_precondition p) (method p).
Definition set_applyPreconditioner (p : primme_params) (v : option callback) : primme_params :=
  with_config p (n p) (numEvals p) (eps p) (target p) (matrixMatvec p)
    v (correctionParams_precondition p) (method p).
Definition set_precondition (p : primme_params) (v : Z) : primme_params :=
  with_config p (n p) (numEvals p) (eps p) (target p) (matrixMatvec p)
    (applyPreconditioner p) v (method p).

(** Modelled from the spec: [primme_set_method] (library code, not part of
    the example).  The spec lists "method/strategy selection (static or
    dynamic)" as one item of the configuration surface; the model records
    the selected method and leaves every other field as it is. *)
Definition primme_set_method (meth : primme_preset_method) (p : primme_params)
    : primme_params :=
  with_config p (n p) (numEvals p) (eps p) (target p) (matrixMatvec p)
    (applyPreconditioner p) (correctionParams_precondition p) meth.

(** [1e-9]; the C literal is the double nearest to it. *)
Definition eps_1e_9 : Q := 1 # 1000000000.

(** Lines 61-91 of [main], starting from the struct [primme_initialize]
    produced. *)
Definition main_configure (init : primme_params) : primme_params :=
  let p := set_matrixMatvec init (Some Cb_LaplacianMatrixMatvec) in
  let p := set_n p 100 in
  let p := set_numEvals p 10 in
  let p := set_eps p eps_1e_9 in
  let p := set_target p primme_smallest in
  let p := set_applyPreconditioner p (Some Cb_LaplacianApplyPreconditioner) in
  let p := set_precondition p 1 in
  primme_set_method PRIMME_DYNAMIC p.

(** What [main] writes to [primme.outputFile], one constructor per
    [fprintf] (or per call of [primme_display_params]). *)
Inductive out_line :=
| L_DisplayParams (p : primme_params)
| L_Error (ret : Z)
| L_Eval (i : Z) (eval rnorm : Q)
| L_Converged (k : Z)
| L_Tolerance (t : Q)
| L_Iterations (k : Z)
| L_Restarts (k : Z)
| L_Matvecs (k : Z)
| L_Preconds (k : Z)
| L_Text (s : string).

Definition msg_locking_1 : string := "A locking problem has occurred.".
Definition msg_locking_2 : string :=
  "Some eigenpairs do not have a residual norm less than the tolerance.".
Definition msg_locking_3 : string :=
  "However, the subspace of evecs is accurate to the required tolerance.".

Definition rec_prefix : string := "Recommended method for next run: ".
Definition rec_min_matvecs : string := rec_prefix ++ "DEFAULT_MIN_MATVECS".
Definition rec_min_time : string := rec_prefix ++ "DEFAULT_MIN_TIME".
Definition rec_dynamic : string := rec_prefix ++ "DYNAMIC (close call)".

(** [for (i=0; i < primme.initSize; i++) fprintf(..., i+1, evals[i], rnorms[i]);] *)
Fixpoint eval_lines (k : nat) (evals rnorms : Z -> Q) : list out_line :=
  match k with
  | O => []
  | S k' => eval_lines k' evals rnorms
            ++ [L_Eval (Z.of_nat k' + 1) (evals (Z.of_nat k')) (rnorms (Z.of_nat k'))]
  end.

(** [primme.locking && primme.intWork && primme.intWork[0] == 1] *)
Definition locking_problem (p : primme_params) : bool :=
  negb (locking p =? 0) &&
  match intWork p with Some w => w 0 =? 1 | None => false end.

(** The [switch (primme.dynamicMethodSwitch)] statement. *)
Definition recommendation_lines (d : Z) : list out_line :=
  if d =? -1 then [L_Text rec_min_matvecs]
  else if d =? -2 then [L_Text rec_min_time]
  else if d =? -3 then [L_Text rec_dynamic]
  else [].

(** Lines 104-145 of [main]: output and exit code, given the value [ret] of
    [dprimme], the arrays it filled and the struct it left. *)
Definition main_report (ret : Z) (evals rnorms : Z -> Q) (p : primme_params)
    : list out_line * Z :=
  if negb (ret =? 0) then ([L_Error ret], -1)
  else
    (eval_lines (Z.to_nat (initSize p)) evals rnorms
     ++ [L_Converged (initSize p); L_Tolerance (aNorm p * eps p)%Q;
         L_Iterations (numOuterIterations (stats p));
         L_Restarts (numRestarts (stats p));
         L_Matvecs (numMatvecs (stats p));
         L_Preconds (numPreconds (stats p))]
     ++ (if locking_problem p
         then [L_Text msg_locking_1; L_Text msg_locking_2; L_Text msg_locking_3]
         else [])
     ++ recommendation_lines (dynamicMethodSwitch p),
     0).

(** [dprimme(evals, evecs, rnorms, &primme)] is the library solver: it is a
    parameter of [main_run], returning its status, the arrays [evals] and
    [rnorms] it filled and the struct as it left it. *)
Definition dprimme_fun := primme_params -> Z * (Z -> Q) * (Z -> Q) * primme_params.

Definition main_run (init : primme_params) (dprimme : dprimme_fun) : list out_line * Z :=
  let p := main_configure init in
  let '(ret, evals, rnorms, p') := dprimme p in
  let '(out, code) := main_report ret evals rnorms p' in
  (L_DisplayParams p :: out, code).

(** Lines that carry a recommendation. *)
Definition is_recommendation (l : out_line) : bool :=
  match l with L_Text s => String.prefix rec_prefix s | _ => false end.

Definition recommendations (out : list out_line) : list out_line :=
  filter is_recommendation out.

(** Lines that report an eigenpair. *)
Definition is_eval (l : out_line) : bool :=
  match l with L_Eval _ _ _ => true | _ => false end.

(** A struct as [primme_initialize] may leave it, and the fields [dprimme]
    writes back; used to build concrete runs of [main]. *)
Definition sample_params : primme_params :=
  {| n := 0; numEvals := 1; eps := 0%Q; target := primme_largest;
     matrixMatvec := None; applyPreconditioner := None;
     correctionParams_precondition := 0; method := PRIMME_DEFAULT_METHOD;
     locking := 0; intWork := None; dynamicMethodSwitch := 0; initSize := 0;
     aNorm := 0%Q;
     stats := {| numOuterIterations := 0; numRestarts := 0; numMatvecs := 0;
                 numPreconds := 0 |} |}.

Definition with_results (p : primme_params) (locking' : Z) (intWork' : option (Z -> Z))
    (dynamicMethodSwitch' initSize' : Z) : primme_params :=
  {| n := n p; numEvals := numEvals p; eps := eps p; target := target p;
     matrixMatvec := matrixMatvec p; applyPreconditioner := applyPreconditioner p;
     correctionParams_precondition := correctionParams_precondition p;
     method := method p; locking := locking'; intWork := intWork';
     dynamicMethodSwitch := dynamicMethodSwitch'; initSize := initSize';
     aNorm := aNorm p; stats := stats p |}.

(** Two runs of [dprimme]: one that converges with a locking problem flagged
    and a recommendation, and one that stops with status [-3] (the matvec
    budget exhausted) holding two eigenpairs and a recommendation. *)
Definition solver_ok_locking : dprimme_fun :=
  fun p => (0, (fun _ => 1%Q), (fun _ => 0%Q), with_results p 1 (Some (fun _ => 1)) (-1) 2).
Definition solver_fail : dprimme_fun :=
  fun p => ((-3)%Z, (fun _ => 1%Q), (fun _ => 0%Q), with_results p 0 None (-1) 2).

(** ** The kernels at exact arithmetic *)

Definition LaplacianMatrixMatvecQ :=
  LaplacianMatrixMatvec Q 0%Q 2%Q (-1)%Q Qplus Qmult.
Definition LaplacianApplyPreconditionerQ :=
  LaplacianApplyPreconditioner Q 2%Q Qdiv.

(** A vector [xv] of length [n] placed at address [0]; the output column
    follows it at address [n]. *)
Definition mem_of (nn : Z) (xv : Z -> Q) : mem Q :=
  fun a => if (0 <=? a) && (a <? nn) then xv a else 0%Q.

(** The operator applied by [LaplacianMatrixMatvec]: one call with block width
    1, [x] at address [0], [y] at address [n], [ldx = ldy = n]. *)
Definition Avec (primme : primme_params) (xv : Z -> Q) (row : Z) : Q :=
  fst (LaplacianMatrixMatvecQ 0 (n primme) (n primme) (n primme) 1 primme
         (mem_of (n primme) xv)) (n primme + row).

Fixpoint sum_to (k : nat) (f : Z -> Q) : Q :=
  match k with
  | O => 0%Q
  | S k' => (sum_to k' f + f (Z.of_nat k'))%Q
  end.

(** Inner product of two vectors of length [nn]. *)
Definition dot (nn : Z) (u v : Z -> Q) : Q := sum_to (Z.to_nat nn) (fun i => u i * v i)%Q.

(** Entries of the tridiagonal matrix with [2] on the diagonal and [-1] on the
    sub- and super-diagonals. *)
Definition lap_entry (r c : Z) : Q :=
  if r =? c then 2%Q
  else if (r =? c + 1) || (c =? r + 1) then (-1)%Q
  else 0%Q.

(** ** Generic facts about memory, loops and the kernels *)

Section Loops.

Variable V : Type.

Lemma upd_same (m : mem V) a v : upd m a v a = v.
Proof. unfold upd. now rewrite Z.eqb_refl. Qed.

Lemma upd_other (m : mem V) a a' v : a' <> a -> upd m a v a' = m a'.
Proof. intros H. unfold upd. now rewrite (proj2 (Z.eqb_neq _ _) H). Qed.

(** A cell no iteration touches keeps its value. *)
Lemma loop_to_frame k (body : mem V -> Z -> mem V) m a :
  (forall m' j, 0 <= j < Z.of_nat k -> body m' j a = m' a) ->
  loop_to k body m a = m a.
Proof.
  induction k as [|k IH]; intros Hb; simpl; [reflexivity|].
  rewrite Hb by lia. apply IH. intros m' j Hj. apply Hb. lia.
Qed.

(** The value of a cell is the one left by the last iteration that touches it. *)
Lemma loop_to_at k (body : mem V -> Z -> mem V) m a r :
  0 <= r < Z.of_nat k ->
  (forall m' j, r < j < Z.of_nat k -> body m' j a = m' a) ->
  loop_to k body m a = body (loop_to (Z.to_nat r) body m) r a.
Proof.
  induction k as [|k IH]; intros Hr Hb; simpl in *; [lia|].
  destruct (Z.eq_dec r (Z.of_nat k)) as [->|Hne].
  - now rewrite Nat2Z.id.
  - rewrite Hb by lia. apply IH; [lia|]. intros m' j Hj. apply Hb. lia.
Qed.

Lemma loop_to_ext k (b1 b2 : mem V -> Z -> mem V) m :
  (forall m' j, 0 <= j < Z.of_nat k -> b1 m' j = b2 m' j) ->
  loop_to k b1 m = loop_to k b2 m.
Proof.
  induction k as [|k IH]; intros Hb; simpl; [reflexivity|].
  rewrite IH by (intros; apply Hb; lia). apply Hb. lia.
Qed.

End Loops.

(** A kernel of the example's shape: a loop over the [b] columns applying
    the column routine [col xvec yvec] with [xvec = x + ldx*i] and
    [yvec = y + ldy*i].  When the column routine writes only its [nn] output
    cells and each output cell is a function [g] of the input column, the
    whole block is characterised cell by cell. *)
Section Block.

Variable V : Type.
Variable nn : Z.
Variable col : Z -> Z -> mem V -> mem V.
Variable g : (Z -> V) -> Z -> V.

Hypothesis col_frame : forall xv yv m a,
  (forall r, 0 <= r < nn -> a <> yv + r) -> col xv yv m a = m a.
Hypothesis col_value : forall xv yv m r,
  (forall r' s, 0 <= r' < nn -> 0 <= s < nn -> xv + s <> yv + r') ->
  0 <= r < nn -> col xv yv m (yv + r) = g (fun j => m (xv + j)) r.
Hypothesis g_ext : forall f1 f2 r,
  (forall j, 0 <= j < nn -> f1 j = f2 j) -> 0 <= r < nn -> g f1 r = g f2 r.

Lemma block_frame x ldx y ldy b m a :
  (forall i r, 0 <= i < b -> 0 <= r < nn -> a <> y + ldy * i + r) ->
  block col x ldx y ldy b m a = m a.
Proof.
  intros Ha. unfold block. apply loop_to_frame.
  intros m' j Hj. apply col_frame. intros r Hr. apply Ha; lia.
Qed.

Lemma block_value x ldx y ldy b m i r :
  ldy >= nn -> blocks_disjoint nn x ldx y ldy b ->
  0 <= i < b -> 0 <= r < nn ->
  block col x ldx y ldy b m (y + ldy * i + r) = g (fun j => m (x + ldx * i + j)) r.
Proof.
  intros Hld Hd Hi Hr. unfold block.
  rewrite (loop_to_at _ _ _ _ _ i) by
    (try lia; intros m' j Hj; apply col_frame; intros r' Hr';
     assert (ldy * (i + 1) <= ldy * j) by (apply Z.mul_le_mono_nonneg_l; lia); lia).
  rewrite col_value by (try lia; intros r' s Hr' Hs; apply Hd; lia).
  apply g_ext; [|exact Hr]. intros j Hj.
  apply loop_to_frame. intros m' j' Hj'. apply col_frame.
  intros r' Hr'. apply Hd; lia.
Qed.

End Block.

Section KernelFacts.

Variable V : Type.
Variables (d_zero d_two d_minus_one : V).
Variables (d_add d_mul d_div : V -> V -> V).

Local Abbreviation matvec_row := (matvec_row V d_zero d_two d_minus_one d_add d_mul).
Local Abbreviation lap_val := (lap_val V d_zero d_two d_minus_one d_add d_mul).
Local Abbreviation precond_row := (precond_row V d_two d_div).
Local Abbreviation LaplacianMatrixMatvec :=
  (LaplacianMatrixMatvec V d_zero d_two d_minus_one d_add d_mul).
Local Abbreviation LaplacianApplyPreconditioner :=
  (LaplacianApplyPreconditioner V d_two d_div).
Local Abbreviation matvec_col := (matvec_col V d_zero d_two d_minus_one d_add d_mul).
Local Abbreviation precond_col := (precond_col V d_two d_div).

Lemma matvec_row_other nn xv yv m row a :
  a <> yv + row -> matvec_row nn xv yv m row a = m a.
Proof.
  intros H. unfold matvec_row.
  destruct (row - 1 >=? 0), (row + 1 <? nn); rewrite ?upd_other by exact H; reflexivity.
Qed.

Lemma matvec_row_at nn xv yv m row :
  (row - 1 >= 0 -> xv + (row - 1) <> yv + row) ->
  xv + row <> yv + row ->
  (row + 1 < nn -> xv + (row + 1) <> yv + row) ->
  matvec_row nn xv yv m row (yv + row) = lap_val nn (fun j => m (xv + j)) row.
Proof.
  intros H1 H2 H3. unfold matvec_row, lap_val.
  destruct (row - 1 >=? 0) eqn:E1; destruct (row + 1 <? nn) eqn:E2;
    rewrite ?Z.geb_le, ?Z.ltb_lt in *;
    rewrite ?upd_same, ?upd_other by (first [apply H1 | apply H2 | apply H3]; lia);
    reflexivity.
Qed.

Lemma lap_val_ext nn f1 f2 r :
  (forall j, 0 <= j < nn -> f1 j = f2 j) -> 0 <= r < nn ->
  lap_val nn f1 r = lap_val nn f2 r.
Proof.
  intros Hf Hr. unfold lap_val.
  destruct (r - 1 >=? 0) eqn:E1; destruct (r + 1 <? nn) eqn:E2;
    rewrite ?Z.geb_le, ?Z.ltb_lt in *; rewrite ?(Hf r), ?(Hf (r - 1)), ?(Hf (r + 1)) by lia;
    reflexivity.
Qed.

Lemma matvec_col_frame nn xv yv m a :
  (forall r, 0 <= r < nn -> a <> yv + r) -> matvec_col nn xv yv m a = m a.
Proof.
  intros Ha. unfold matvec_col. apply loop_to_frame. intros m' j Hj.
  apply matvec_row_other, Ha. lia.
Qed.

Lemma matvec_col_value nn xv yv m r :
  (forall r' s, 0 <= r' < nn -> 0 <= s < nn -> xv + s <> yv + r') ->
  0 <= r < nn -> matvec_col nn xv yv m (yv + r) = lap_val nn (fun j => m (xv + j)) r.
Proof.
  intros Hd Hr. unfold matvec_col.
  rewrite (loop_to_at _ _ _ _ _ r) by
    (try lia; intros m' j Hj; apply matvec_row_other; lia).
  rewrite matvec_row_at by (intros; apply Hd; lia).
  apply lap_val_ext; [|exact Hr]. intros j Hj.
  apply loop_to_frame. intros m' j' Hj'. apply matvec_row_other.
  apply Hd; lia.
Qed.

Lemma precond_col_frame nn xv yv m a :
  (forall r, 0 <= r < nn -> a <> yv + r) -> precond_col nn xv yv m a = m a.
Proof.
  intros Ha. unfold precond_col. apply loop_to_frame. intros m' j Hj.
  unfold precond_row. apply upd_other, Ha. lia.
Qed.

Lemma precond_col_value nn xv yv m r :
  (forall r' s, 0 <= r' < nn -> 0 <= s < nn -> xv + s <> yv + r') ->
  0 <= r < nn -> precond_col nn xv yv m (yv + r) = d_div (m (xv + r)) d_two.
Proof.
  intros Hd Hr. unfold precond_col.
  rewrite (loop_to_at _ _ _ _ _ r) by
    (try lia; intros m' j Hj; unfold precond_row; apply upd_other; lia).
  unfold precond_row at 1. rewrite upd_same. f_equal.
  apply loop_to_frame. intros m' j' Hj'. unfold precond_row. apply upd_other.
  apply Hd; lia.
Qed.

Lemma LaplacianMatrixMatvec_block x ldx y ldy b primme m :
  fst (LaplacianMatrixMatvec x ldx y ldy b primme m)
  = block (matvec_col (n primme)) x ldx y ldy b m.
Proof. reflexivity. Qed.

Lemma LaplacianApplyPreconditioner_block x ldx y ldy b primme m :
  fst (LaplacianApplyPreconditioner x ldx y ldy b primme m)
  = block (precond_col (n primme)) x ldx y ldy b m.
Proof. reflexivity. Qed.

Lemma LaplacianMatrixMatvec_value x ldx y ldy b primme m i r :
  ldy >= n primme -> blocks_disjoint (n primme) x ldx y ldy b ->
  0 <= i < b -> 0 <= r < n primme ->
  fst (LaplacianMatrixMatvec x ldx y ldy b primme m) (y + ldy * i + r)
  = lap_val (n primme) (fun j => m (x + ldx * i + j)) r.
Proof.
  intros. rewrite LaplacianMatrixMatvec_block.
  apply (block_value _ (n primme) _ (lap_val (n primme))); auto.
  - intros. apply matvec_col_frame; auto.
  - intros. apply matvec_col_value; auto.
  - intros. apply lap_val_ext; auto.
Qed.

Lemma LaplacianApplyPreconditioner_value x ldx y ldy b primme m i r :
  ldy >= n primme -> blocks_disjoint (n primme) x ldx y ldy b ->
  0 <= i < b -> 0 <= r < n primme ->
  fst (LaplacianApplyPreconditioner x ldx y ldy b primme m) (y + ldy * i + r)
  = d_div (m (x + ldx * i + r)) d_two.
Proof.
  intros. rewrite LaplacianApplyPreconditioner_block.
  apply (block_value _ (n primme) _ (fun xr r => d_div (xr r) d_two)
           (precond_col_frame (n primme)) (precond_col_value (n primme))); auto.
  intros f1 f2 r' Hf Hr'. simpl. rewrite Hf by exact Hr'. reflexivity.
Qed.

End KernelFacts.

(** ** Claims on the kernels, for any representation of doubles *)

Section KernelClaims.

Variable V : Type.
Variables (d_zero d_two d_minus_one : V).
Variables (d_add d_mul d_div : V -> V -> V).

Local Abbreviation LaplacianMatrixMatvec :=
  (LaplacianMatrixMatvec V d_zero d_two d_minus_one d_add d_mul).
Local Abbreviation LaplacianApplyPreconditioner :=
  (LaplacianApplyPreconditioner V d_two d_div).

(** C8: every call of either kernel, for every block width (zero and
    negative included) and every memory, stores 0 in the status [*err]. *)
Theorem kernels_status_always_zero x ldx y ldy b primme (m : mem V) :
  snd (LaplacianMatrixMatvec x ldx y ldy b primme m) = 0 /\
  snd (LaplacianApplyPreconditioner x ldx y ldy b primme m) = 0.
Proof. split; reflexivity. Qed.

(** C2: one call with block width [b] leaves exactly the same memory (hence
    bit for bit the same outputs) as [b] calls with block width 1, the
    [i]-th on column [i] of [x] and of [y] with the same leading dimensions,
    made one after the other; for both kernels and any value semantics. *)
Theorem kernels_block_width_independent x ldx y ldy b primme (m : mem V) :
  fst (LaplacianMatrixMatvec x ldx y ldy b primme m)
    = calls_one_at_a_time LaplacianMatrixMatvec x ldx y ldy b primme m /\
  fst (LaplacianApplyPreconditioner x ldx y ldy b primme m)
    = calls_one_at_a_time LaplacianApplyPreconditioner x ldx y ldy b primme m.
Proof.
  split; unfold calls_one_at_a_time; simpl; apply loop_to_ext;
    intros m' j _; simpl; rewrite !Z.mul_0_r, !Z.add_0_r; reflexivity.
Qed.

(** C7: both kernels change no cell outside the output block
    [y + ldy*i + row] ([0 <= i < b], [0 <= row < n]): rows beyond [n] of a
    column, columns beyond [b] and everything else keep their value; in
    particular, when the input block does not share a cell with the output
    block, the input block is left unchanged. *)
Theorem kernels_write_only_output_block x ldx y ldy b primme (m : mem V) :
  (forall a, ~ in_output_block (n primme) y ldy b a ->
     fst (LaplacianMatrixMatvec x ldx y ldy b primme m) a = m a /\
     fst (LaplacianApplyPreconditioner x ldx y ldy b primme m) a = m a) /\
  (blocks_disjoint (n primme) x ldx y ldy b ->
   forall j s, 0 <= j < b -> 0 <= s < n primme ->
     fst (LaplacianMatrixMatvec x ldx y ldy b primme m) (x + ldx * j + s)
       = m (x + ldx * j + s) /\
     fst (LaplacianApplyPreconditioner x ldx y ldy b primme m) (x + ldx * j + s)
       = m (x + ldx * j + s)).
Proof.
  rewrite LaplacianMatrixMatvec_block, LaplacianApplyPreconditioner_block.
  split.
  - intros a Ha.
    assert (Hn : forall i r, 0 <= i < b -> 0 <= r < n primme -> a <> y + ldy * i + r)
      by (intros i r Hi Hr ->; apply Ha; exists i, r; auto).
    split; apply (block_frame _ (n primme)); try exact Hn; intros.
    + apply matvec_col_frame; auto.
    + apply precond_col_frame; auto.
  - intros Hd j s Hj Hs.
    assert (Hn : forall i r, 0 <= i < b -> 0 <= r < n primme ->
                 x + ldx * j + s <> y + ldy * i + r)
      by (intros; apply Hd; lia).
    split; apply (block_frame _ (n primme)); try exact Hn; intros.
    + apply matvec_col_frame; auto.
    + apply precond_col_frame; auto.
Qed.

End KernelClaims.

(** ** The kernels at exact arithmetic: values *)

Ltac zbool_cases :=
  repeat match goal with
         | |- context [if ?c then _ else _] => let E := fresh "E" in destruct c eqn:E
         end;
  repeat match goal with
         | H : _ = true |- _ =>
             rewrite ?Bool.andb_true_iff, ?Bool.orb_true_iff, ?Z.eqb_eq, ?Z.ltb_lt,
               ?Z.leb_le, ?Z.geb_le in H; revert H
         | H : _ = false |- _ =>
             rewrite ?Bool.andb_false_iff, ?Bool.orb_false_iff, ?Z.eqb_neq, ?Z.ltb_ge,
               ?Z.leb_gt, ?Z.geb_leb, ?Z.leb_gt in H; revert H
         end; intros.

Lemma lap_val_Q nn xr r :
  (lap_val Q 0 2 (-1) Qplus Qmult nn xr r
   == (if (r - 1 >=? 0)%Z then - xr (r - 1)%Z else 0)
      + 2 * xr r + (if (r + 1 <? nn)%Z then - xr (r + 1)%Z else 0))%Q.
Proof. unfold lap_val. destruct (r - 1 >=? 0), (r + 1 <? nn); ring. Qed.

Lemma sum_to_ext k f1 f2 :
  (forall i, 0 <= i < Z.of_nat k -> (f1 i == f2 i)%Q) -> (sum_to k f1 == sum_to k f2)%Q.
Proof.
  induction k as [|k IH]; intros H; simpl; [reflexivity|].
  rewrite IH by (intros; apply H; lia). rewrite (H (Z.of_nat k)) by lia. reflexivity.
Qed.

(** A row of the tridiagonal matrix against a vector, over the first [k]
    columns. *)
Lemma lap_row_sum k r xr :
  (sum_to k (fun c => lap_entry r c * xr c)
   == (if ((0 <=? r - 1) && (r - 1 <? Z.of_nat k))%Z then - xr (r - 1)%Z else 0)
      + (if ((0 <=? r) && (r <? Z.of_nat k))%Z then 2 * xr r else 0)
      + (if ((0 <=? r + 1) && (r + 1 <? Z.of_nat k))%Z then - xr (r + 1)%Z else 0))%Q.
Proof.
  induction k as [|k IH]; simpl sum_to.
  - simpl Z.of_nat. zbool_cases; first [exfalso; lia | ring].
  - rewrite IH. rewrite Nat2Z.inj_succ. unfold Z.succ.
    assert (HK : 0 <= Z.of_nat k) by lia. generalize dependent (Z.of_nat k).
    intros K IH' HK. clear IH'. unfold lap_entry.
    destruct (Z.eq_dec K (r - 1)) as [->|H1];
    [|destruct (Z.eq_dec K r) as [->|H2];
      [|destruct (Z.eq_dec K (r + 1)) as [->|H3]]];
    zbool_cases; first [exfalso; lia | ring].
Qed.

(** C1: for block width [b] and leading dimension [ldy >= n], with the input
    and output blocks in separate cells, output column [i] of
    [LaplacianMatrixMatvec] holds [-X[row-1] + 2*X[row] - X[row+1]] at every
    [0 <= row < n], the terms outside [0..n-1] omitted; this is row [row] of
    the tridiagonal 2/-1 matrix times input column [i]. *)
Theorem matvec_computes_laplacian x ldx y ldy b primme (m : mem Q) :
  ldy >= n primme -> blocks_disjoint (n primme) x ldx y ldy b ->
  forall i row, 0 <= i < b -> 0 <= row < n primme ->
  let X := fun j => m (x + ldx * i + j) in
  let Y := fst (LaplacianMatrixMatvecQ x ldx y ldy b primme m) (y + ldy * i + row) in
  (Y == (if (row - 1 >=? 0)%Z then - X (row - 1)%Z else 0)
        + 2 * X row + (if (row + 1 <? n primme)%Z then - X (row + 1)%Z else 0))%Q /\
  (Y == sum_to (Z.to_nat (n primme)) (fun c => lap_entry row c * X c))%Q.
Proof.
  intros Hld Hd i row Hi Hr X Y. unfold Y, LaplacianMatrixMatvecQ.
  rewrite LaplacianMatrixMatvec_value by assumption. rewrite lap_val_Q.
  split; [reflexivity|]. rewrite lap_row_sum, Z2Nat.id by lia.
  unfold X. zbool_cases; first [exfalso; lia | ring].
Qed.

(** C10: for [ldy >= n] and separate input and output blocks,
    [LaplacianApplyPreconditioner] stores [x[row]/2] at every
    [0 <= row < n] of every output column [i < b]: twice the output gives
    back the input (the inverse of [diag(2)]), and a nonzero entry is not
    reproduced, so the map is not the identity. *)
Theorem precond_halves_entries x ldx y ldy b primme (m : mem Q) :
  ldy >= n primme -> blocks_disjoint (n primme) x ldx y ldy b ->
  forall i row, 0 <= i < b -> 0 <= row < n primme ->
  let X := m (x + ldx * i + row) in
  let Y := fst (LaplacianApplyPreconditionerQ x ldx y ldy b primme m) (y + ldy * i + row) in
  (Y == X / 2)%Q /\ (2 * Y == X)%Q /\ (~ X == 0 -> ~ Y == X)%Q.
Proof.
  intros Hld Hd i row Hi Hr X Y. unfold Y, LaplacianApplyPreconditionerQ.
  rewrite LaplacianApplyPreconditioner_value by assumption. fold X.
  split; [reflexivity|]. split.
  - field.
  - intros HX HY. apply HX.
    assert (H2 : (2 * (X / 2) == 2 * X)%Q) by (rewrite HY; reflexivity).
    field_simplify in H2. rewrite <- (Qplus_0_r X) at 1.
    setoid_replace X with (2 * X - X)%Q at 1 by ring.
    rewrite <- H2. ring.
Qed.

(** ** The operator as a matrix: symmetry and definiteness *)

Lemma sum_to_plus k f1 f2 :
  (sum_to k (fun i => f1 i + f2 i) == sum_to k f1 + sum_to k f2)%Q.
Proof. induction k as [|k IH]; simpl; [ring|]. rewrite IH. ring. Qed.

Lemma sum_to_mult_r k f a :
  (sum_to k f * a == sum_to k (fun i => f i * a))%Q.
Proof. induction k as [|k IH]; simpl; [ring|]. rewrite <- IH. ring. Qed.

Lemma sum_to_mult_l k f a :
  (a * sum_to k f == sum_to k (fun i => a * f i))%Q.
Proof. induction k as [|k IH]; simpl; [ring|]. rewrite <- IH. ring. Qed.

Lemma sum_to_swap k1 k2 (F : Z -> Z -> Q) :
  (sum_to k1 (fun r => sum_to k2 (fun c => F r c))
   == sum_to k2 (fun c => sum_to k1 (fun r => F r c)))%Q.
Proof.
  induction k1 as [|k1 IH]; simpl.
  - induction k2 as [|k2 IH2]; simpl; [reflexivity|]. rewrite <- IH2. ring.
  - rewrite IH, sum_to_plus. reflexivity.
Qed.

Lemma sum_to_nonneg k f :
  (forall i, 0 <= i < Z.of_nat k -> (0 <= f i)%Q) -> (0 <= sum_to k f)%Q.
Proof.
  induction k as [|k IH]; intros H; simpl; [apply Qle_refl|].
  assert (H1 : (0 <= sum_to k f)%Q) by (apply IH; intros; apply H; lia).
  assert (H2 : (0 <= f (Z.of_nat k))%Q) by (apply H; lia). lra.
Qed.

Lemma Qsq_nonneg a : (0 <= a * a)%Q.
Proof. destruct (Qlt_le_dec a 0); nra. Qed.

Lemma Qsq_pos a : ~ (a == 0)%Q -> (0 < a * a)%Q.
Proof. intros H. destruct (Q_dec a 0) as [[H1|H1]|H1]; [nra|nra|contradiction]. Qed.

Lemma lap_entry_sym r c : lap_entry r c = lap_entry c r.
Proof. unfold lap_entry. zbool_cases; first [exfalso; lia | reflexivity]. Qed.

Lemma lap_val_sum nn xr r :
  0 <= r < nn ->
  (lap_val Q 0 2 (-1) Qplus Qmult nn xr r
   == sum_to (Z.to_nat nn) (fun c => lap_entry r c * xr c))%Q.
Proof.
  intros Hr. rewrite lap_val_Q, lap_row_sum, Z2Nat.id by lia.
  zbool_cases; first [exfalso; lia | ring].
Qed.

Lemma Avec_lap_val primme xv r :
  0 <= r < n primme ->
  Avec primme xv r = lap_val Q 0%Q 2%Q (-1)%Q Qplus Qmult (n primme) xv r.
Proof.
  intros Hr. unfold Avec, LaplacianMatrixMatvecQ.
  replace (n primme + r) with (n primme + n primme * 0 + r) by ring.
  rewrite LaplacianMatrixMatvec_value by
    (try lia; intros i j r' s Hi Hj Hr' Hs;
     replace i with 0 in * by lia; replace j with 0 in * by lia; lia).
  apply lap_val_ext; [|exact Hr]. intros j Hj. unfold mem_of.
  rewrite Z.mul_0_r, !Z.add_0_l. zbool_cases; first [exfalso; lia | reflexivity].
Qed.

(** [x^T A x] for a vector vanishing at [-1], as a sum of squares. *)
Lemma quad_telescope k (xr : Z -> Q) :
  (xr (-1)%Z == 0)%Q ->
  (sum_to k (fun r => xr r * (2 * xr r - xr (r - 1)%Z - xr (r + 1)%Z))
   == sum_to k (fun r => (xr (r - 1)%Z - xr r) * (xr (r - 1)%Z - xr r))
      + xr (Z.of_nat k - 1)%Z * xr (Z.of_nat k - 1)%Z
      - xr (Z.of_nat k - 1)%Z * xr (Z.of_nat k))%Q.
Proof.
  intros H0. induction k as [|k IH]; simpl sum_to.
  - simpl Z.of_nat. change (0 - 1) with (-1). rewrite H0. ring.
  - rewrite IH, Nat2Z.inj_succ. unfold Z.succ.
    replace (Z.of_nat k + 1 - 1) with (Z.of_nat k) by ring. ring.
Qed.

Lemma sq_diffs_pos k (xr : Z -> Q) :
  (xr (-1)%Z == 0)%Q ->
  (exists i, 0 <= i < Z.of_nat k /\ ~ (xr i == 0)%Q) ->
  (0 < sum_to k (fun r => (xr (r - 1)%Z - xr r) * (xr (r - 1)%Z - xr r)))%Q.
Proof.
  intros H0. induction k as [|k IH]; intros [i [Hi Hx]]; [simpl in Hi; lia|].
  simpl sum_to.
  assert (Hs : (0 <= sum_to k (fun r => (xr (r - 1)%Z - xr r) * (xr (r - 1)%Z - xr r)))%Q)
    by (apply sum_to_nonneg; intros; apply Qsq_nonneg).
  rewrite Nat2Z.inj_succ in Hi.
  destruct (Z.eq_dec i (Z.of_nat k)) as [->|Hne].
  - destruct (Qeq_dec (xr (Z.of_nat k - 1)%Z) 0) as [Hz|Hnz].
    + pose proof (Qsq_pos (xr (Z.of_nat k - 1)%Z - xr (Z.of_nat k))) as Hp.
      assert (~ (xr (Z.of_nat k - 1)%Z - xr (Z.of_nat k) == 0)%Q)
        by (rewrite Hz; intros He; apply Hx; lra).
      specialize (Hp H). lra.
    + assert (Hk : Z.of_nat k - 1 <> -1) by (intros He; rewrite He in Hnz; contradiction).
      assert (Hp : (0 < sum_to k (fun r => (xr (r - 1)%Z - xr r) * (xr (r - 1)%Z - xr r)))%Q)
        by (apply IH; exists (Z.of_nat k - 1); split; [lia | exact Hnz]).
      pose proof (Qsq_nonneg (xr (Z.of_nat k - 1)%Z - xr (Z.of_nat k))). lra.
  - assert (Hp : (0 < sum_to k (fun r => (xr (r - 1)%Z - xr r) * (xr (r - 1)%Z - xr r)))%Q)
      by (apply IH; exists i; split; [lia | exact Hx]).
    pose proof (Qsq_nonneg (xr (Z.of_nat k - 1)%Z - xr (Z.of_nat k))). lra.
Qed.

(** C3: in exact arithmetic the operator applied by [LaplacianMatrixMatvec]
    is symmetric, [<A x, y> = <x, A y>] for all vectors [x], [y] of length
    [n], and positive definite, [x^T A x > 0] for every nonzero [x]. *)
Theorem laplacian_symmetric_positive_definite primme (x y : Z -> Q) :
  (dot (n primme) (Avec primme x) y == dot (n primme) x (Avec primme y))%Q /\
  ((exists i, 0 <= i < n primme /\ ~ (x i == 0)%Q) ->
   (0 < dot (n primme) x (Avec primme x))%Q).
Proof.
  set (nn := n primme). set (K := Z.to_nat nn).
  assert (HK : forall i, 0 <= i < Z.of_nat K -> 0 <= i < nn) by (unfold K; lia).
  split.
  - unfold dot. fold K.
    transitivity (sum_to K (fun r => sum_to K (fun c => lap_entry r c * x c * y r)))%Q.
    { apply sum_to_ext. intros r Hr. rewrite Avec_lap_val by (apply HK; exact Hr).
      rewrite lap_val_sum by (apply HK; exact Hr). apply sum_to_mult_r. }
    rewrite sum_to_swap.
    transitivity (sum_to K (fun r => x r * sum_to K (fun c => lap_entry r c * y c)))%Q.
    { apply sum_to_ext. intros r Hr. rewrite sum_to_mult_l. apply sum_to_ext.
      intros c Hc. rewrite (lap_entry_sym c r). ring. }
    apply sum_to_ext. intros r Hr. rewrite Avec_lap_val by (apply HK; exact Hr).
    rewrite lap_val_sum by (apply HK; exact Hr). reflexivity.
  - intros [i [Hi Hx]].
    set (zx := fun j => if (0 <=? j) && (j <? nn) then x j else 0%Q).
    assert (Hz : (zx (-1)%Z == 0)%Q) by (unfold zx; simpl; reflexivity).
    assert (E : (dot nn x (Avec primme x)
                 == sum_to K (fun r => zx r * (2 * zx r - zx (r - 1)%Z - zx (r + 1)%Z)))%Q).
    { unfold dot. apply sum_to_ext. intros r Hr. specialize (HK r Hr).
      rewrite Avec_lap_val by exact HK. rewrite lap_val_Q. unfold zx.
      zbool_cases; first [exfalso; lia | ring]. }
    rewrite E, quad_telescope by exact Hz. unfold K. rewrite Z2Nat.id by lia.
    assert (Hn0 : zx nn = 0%Q) by (unfold zx; zbool_cases; first [exfalso; lia | reflexivity]).
    rewrite Hn0.
    assert (Hp : (0 < sum_to (Z.to_nat nn)
                        (fun r => (zx (r - 1)%Z - zx r) * (zx (r - 1)%Z - zx r)))%Q).
    { apply sq_diffs_pos; [exact Hz|]. exists i. split; [lia|].
      unfold zx. zbool_cases; first [exfalso; lia | exact Hx]. }
    pose proof (Qsq_nonneg (zx (nn - 1)%Z)). lra.
Qed.

(** ** Claims on the driver *)

Lemma main_run_unfold init (dprimme : dprimme_fun) ret evals rnorms p :
  dprimme (main_configure init) = (ret, evals, rnorms, p) ->
  main_run init dprimme
  = (L_DisplayParams (main_configure init) :: fst (main_report ret evals rnorms p),
     snd (main_report ret evals rnorms p)).
Proof.
  intros H. unfold main_run. cbv zeta. rewrite H.
  destruct (main_report ret evals rnorms p). reflexivity.
Qed.

Lemma eval_lines_no_text k evals rnorms s :
  ~ In (L_Text s) (eval_lines k evals rnorms).
Proof.
  induction k as [|k IH]; simpl; [tauto|].
  rewrite in_app_iff. simpl. intros [H|[H|H]]; [tauto|discriminate|tauto].
Qed.

Lemma eval_lines_In k evals rnorms i :
  0 <= i < Z.of_nat k -> In (L_Eval (i + 1) (evals i) (rnorms i)) (eval_lines k evals rnorms).
Proof.
  induction k as [|k IH]; intros Hi; [simpl in Hi; lia|].
  simpl eval_lines. rewrite in_app_iff. rewrite Nat2Z.inj_succ in Hi.
  destruct (Z.eq_dec i (Z.of_nat k)) as [->|Hne].
  - right. left. reflexivity.
  - left. apply IH. lia.
Qed.

Lemma eval_lines_no_recommendation k evals rnorms :
  recommendations (eval_lines k evals rnorms) = [].
Proof.
  unfold recommendations. induction k as [|k IH]; simpl; [reflexivity|].
  rewrite filter_app, IH. reflexivity.
Qed.

Lemma recommendation_lines_no_locking d :
  ~ In (L_Text msg_locking_1) (recommendation_lines d).
Proof.
  unfold recommendation_lines.
  destruct (d =? -1), (d =? -2), (d =? -3); simpl; intros H;
    repeat destruct H as [H|H]; try inversion H; vm_compute in H; discriminate.
Qed.

Lemma locking_problem_iff p :
  locking_problem p = true <-> locking p <> 0 /\ exists w, intWork p = Some w /\ w 0 = 1.
Proof.
  unfold locking_problem. rewrite Bool.andb_true_iff, Bool.negb_true_iff, Z.eqb_neq.
  destruct (intWork p) as [w|].
  - rewrite Z.eqb_eq. split.
    + intros [H1 H2]. split; [exact H1|]. exists w. auto.
    + intros [H1 [w' [Hw H2]]]. injection Hw as <-. auto.
  - split; [intros [_ H]; discriminate|]. intros [_ [w' [Hw _]]]. discriminate.
Qed.

(** C9: before [dprimme] is called, the struct [main] hands it (whatever
    [primme_initialize] produced) describes the reference problem: dimension
    100, 10 wanted eigenpairs, tolerance [1e-9], target the smallest
    eigenvalues. *)
Theorem main_configures_reference_problem init :
  let p := main_configure init in
  n p = 100 /\ numEvals p = 10 /\ eps p = (1 # 1000000000)%Q /\
  target p = primme_smallest.
Proof. repeat split. Qed.

(** C4, as the claim states it, fails: a solve that stops with a nonzero
    status and two eigenpairs in hand gets none of them reported. *)
Lemma main_failure_reports_results_counterexample :
  ~ (forall init (dprimme : dprimme_fun) ret evals rnorms p,
       dprimme (main_configure init) = (ret, evals, rnorms, p) ->
       ret <> 0 -> 0 < initSize p ->
       In (L_Eval 1 (evals 0) (rnorms 0)) (fst (main_run init dprimme))).
Proof.
  intros H.
  specialize (H sample_params solver_fail (-3) (fun _ => 1%Q) (fun _ => 0%Q)
                (with_results (main_configure sample_params) 0 None (-1) 2)
                eq_refl ltac:(lia) ltac:(simpl; lia)).
  simpl in H. destruct H as [H|[H|H]]; try discriminate; contradiction.
Qed.

(** C4 (amended): when [dprimme] returns a nonzero status [ret], [main]
    prints only the error line with [ret] (after the parameter display) and
    exits with [-1]; none of the eigenvalues or residual norms [dprimme] may
    have produced is reported. *)
Theorem main_failure_exits_without_results init (dprimme : dprimme_fun) ret evals rnorms p :
  dprimme (main_configure init) = (ret, evals, rnorms, p) -> ret <> 0 ->
  main_run init dprimme = ([L_DisplayParams (main_configure init); L_Error ret], -1).
Proof.
  intros H Hr. rewrite (main_run_unfold _ _ _ _ _ _ H). unfold main_report.
  rewrite (proj2 (Z.eqb_neq _ _) Hr). reflexivity.
Qed.

(** C5: after a successful solve ([dprimme] returns 0), [main] prints the
    locking warning exactly when [primme.locking] is nonzero, [intWork] is
    not [NULL] and [intWork[0] == 1]; the three lines of the warning then come
    after every converged eigenpair line. *)
Theorem main_locking_warning init (dprimme : dprimme_fun) evals rnorms p :
  dprimme (main_configure init) = (0, evals, rnorms, p) ->
  (In (L_Text msg_locking_1) (fst (main_run init dprimme)) <->
     locking p <> 0 /\ exists w, intWork p = Some w /\ w 0 = 1) /\
  (locking_problem p = true ->
     exists pre post,
       fst (main_run init dprimme)
         = pre ++ [L_Text msg_locking_1; L_Text msg_locking_2; L_Text msg_locking_3] ++ post /\
       forall i, 0 <= i < initSize p -> In (L_Eval (i + 1) (evals i) (rnorms i)) pre).
Proof.
  intros H. rewrite (main_run_unfold _ _ _ _ _ _ H). unfold main_report. cbn [negb fst Z.eqb].
  rewrite <- locking_problem_iff. split; [split|].
  - intros [Hd|Hin]; [discriminate|]. rewrite !in_app_iff in Hin.
    destruct Hin as [Hin|[Hin|[Hin|Hin]]].
    + exfalso. exact (eval_lines_no_text _ _ _ _ Hin).
    + simpl in Hin. repeat (destruct Hin as [Hin|Hin]; [discriminate|]). contradiction.
    + destruct (locking_problem p); [reflexivity|contradiction].
    + exfalso. exact (recommendation_lines_no_locking _ Hin).
  - intros Hl. rewrite Hl. right. rewrite !in_app_iff. right. right. left. left. reflexivity.
  - intros Hl. rewrite Hl.
    exists (L_DisplayParams (main_configure init)
            :: eval_lines (Z.to_nat (initSize p)) evals rnorms
            ++ [L_Converged (initSize p); L_Tolerance (aNorm p * eps p)%Q;
                L_Iterations (numOuterIterations (stats p));
                L_Restarts (numRestarts (stats p));
                L_Matvecs (numMatvecs (stats p));
                L_Preconds (numPreconds (stats p))]),
           (recommendation_lines (dynamicMethodSwitch p)).
    split.
    + simpl. rewrite <- app_assoc. reflexivity.
    + intros i Hi. right. rewrite in_app_iff. left. apply eval_lines_In. lia.
Qed.

(** C6, as the claim states it, fails: a dynamic run that ends with the
    solver failing (status [-3]) and [dynamicMethodSwitch = -1] gets no
    recommendation printed. *)
Lemma main_recommendation_on_failure_counterexample :
  ~ (forall init (dprimme : dprimme_fun) ret evals rnorms p,
       dprimme (main_configure init) = (ret, evals, rnorms, p) ->
       dynamicMethodSwitch p = -1 ->
       recommendations (fst (main_run init dprimme)) = [L_Text rec_min_matvecs]).
Proof.
  intros H.
  specialize (H sample_params solver_fail (-3) (fun _ => 1%Q) (fun _ => 0%Q)
                (with_results (main_configure sample_params) 0 None (-1) 2)
                eq_refl eq_refl).
  vm_compute in H. discriminate.
Qed.

(** C6 (amended): after a successful solve [main] prints at most one
    recommendation, chosen by [dynamicMethodSwitch]: [-1] gives
    DEFAULT_MIN_MATVECS, [-2] DEFAULT_MIN_TIME, [-3] DYNAMIC (close call),
    any other value none; when [dprimme] returns a nonzero status no
    recommendation is printed. *)
Theorem main_recommendation init (dprimme : dprimme_fun) ret evals rnorms p :
  dprimme (main_configure init) = (ret, evals, rnorms, p) ->
  recommendations (fst (main_run init dprimme)) =
  (if ret =? 0 then
     if dynamicMethodSwitch p =? -1 then [L_Text rec_min_matvecs]
     else if dynamicMethodSwitch p =? -2 then [L_Text rec_min_time]
     else if dynamicMethodSwitch p =? -3 then [L_Text rec_dynamic]
     else []
   else []).
Proof.
  intros H. rewrite (main_run_unfold _ _ _ _ _ _ H). unfold main_report. cbn [negb fst Z.eqb].
  destruct (ret =? 0); [|reflexivity]. simpl negb. cbv iota.
  unfold recommendations. simpl filter. rewrite !filter_app.
  fold (recommendations (eval_lines (Z.to_nat (initSize p)) evals rnorms)).
  rewrite eval_lines_no_recommendation.
  unfold recommendation_lines.
  destruct (locking_problem p), (dynamicMethodSwitch p =? -1),
    (dynamicMethodSwitch p =? -2), (dynamicMethodSwitch p =? -3); reflexivity.
Qed.

(** ** Concrete runs *)

(** The column [0, 1, 2] is mapped to [-1, 0, 3] and, by the
    preconditioner, to [0, 1/2, 1]. *)
Example matvec_small_column :
  let m' := fst (LaplacianMatrixMatvecQ 0 3 10 3 1 (set_n sample_params 3)
                   (fun a => inject_Z a)) in
  (m' 10%Z == -1)%Q /\ (m' 11%Z == 0)%Q /\ (m' 12%Z == 3)%Q /\ m' 13 = inject_Z 13.
Proof. vm_compute. repeat split; reflexivity. Qed.

Example precond_small_column :
  let m' := fst (LaplacianApplyPreconditionerQ 0 3 10 3 1 (set_n sample_params 3)
                   (fun a => inject_Z a)) in
  (m' 10%Z == 0)%Q /\ (m' 11%Z == 1 # 2)%Q /\ (m' 12%Z == 1)%Q.
Proof. vm_compute. repeat split; reflexivity. Qed.

(** ** Witnesses *)

Ltac params_simpl := cbn [n set_n with_config locking with_results intWork].

Lemma matvec_computes_laplacian_witness :
  (fst (LaplacianMatrixMatvecQ 0 3 10 3 2 (set_n sample_params 3) (fun a => inject_Z a))
     (10 + 3 * 1 + 1)%Z == 0)%Q.
Proof.
  destruct (matvec_computes_laplacian 0 3 10 3 2 (set_n sample_params 3)
              (fun a => inject_Z a) ltac:(params_simpl; lia)
              ltac:(unfold blocks_disjoint; params_simpl; intros; lia) 1 1 ltac:(lia) ltac:(params_simpl; lia))
    as [H _].
  rewrite H. vm_compute. reflexivity.
Defined.

Lemma precond_halves_entries_witness :
  (fst (LaplacianApplyPreconditionerQ 0 3 10 3 2 (set_n sample_params 3)
          (fun a => inject_Z a)) (10 + 3 * 1 + 1)%Z == 2)%Q.
Proof.
  destruct (precond_halves_entries 0 3 10 3 2 (set_n sample_params 3)
              (fun a => inject_Z a) ltac:(params_simpl; lia)
              ltac:(unfold blocks_disjoint; params_simpl; intros; lia) 1 1 ltac:(lia) ltac:(params_simpl; lia))
    as [H _].
  rewrite H. vm_compute. reflexivity.
Defined.

Lemma laplacian_symmetric_positive_definite_witness :
  (dot (n (set_n sample_params 2)) (Avec (set_n sample_params 2) (fun _ => 1%Q))
       (fun j => inject_Z j)
   == dot (n (set_n sample_params 2)) (fun _ => 1%Q)
          (Avec (set_n sample_params 2) (fun j => inject_Z j)))%Q /\
  (0 < dot (n (set_n sample_params 2)) (fun _ => 1%Q)
         (Avec (set_n sample_params 2) (fun _ => 1%Q)))%Q.
Proof.
  destruct (laplacian_symmetric_positive_definite (set_n sample_params 2)
              (fun _ => 1%Q) (fun j => inject_Z j)) as [H1 H2].
  split; [exact H1|]. apply H2. exists 0. split; [params_simpl; lia|].
  vm_compute. discriminate.
Defined.

Lemma kernels_write_only_output_block_witness :
  fst (LaplacianMatrixMatvecQ 0 3 10 3 1 (set_n sample_params 3) (fun a => inject_Z a)) 13
    = inject_Z 13 /\
  fst (LaplacianApplyPreconditionerQ 0 3 10 3 1 (set_n sample_params 3)
         (fun a => inject_Z a)) 2 = inject_Z 2.
Proof.
  destruct (kernels_write_only_output_block Q 0%Q 2%Q (-1)%Q Qplus Qmult Qdiv
              0 3 10 3 1 (set_n sample_params 3) (fun a => inject_Z a)) as [H1 H2].
  split.
  - apply (H1 13). intros [i [r [Hi [Hr Ha]]]]. simpl in Hr. lia.
  - apply (H2 ltac:(unfold blocks_disjoint; params_simpl; intros; lia) 0 2 ltac:(lia) ltac:(params_simpl; lia)).
Defined.

Lemma main_failure_exits_without_results_witness :
  main_run sample_params solver_fail
  = ([L_DisplayParams (main_configure sample_params); L_Error (-3)], -1).
Proof.
  apply (main_failure_exits_without_results sample_params solver_fail (-3)
           (fun _ => 1%Q) (fun _ => 0%Q)
           (with_results (main_configure sample_params) 0 None (-1) 2));
    [reflexivity | lia].
Defined.

Lemma main_locking_warning_witness :
  In (L_Text msg_locking_1) (fst (main_run sample_params solver_ok_locking)).
Proof.
  apply (proj2 (proj1 (main_locking_warning sample_params solver_ok_locking
                          (fun _ => 1%Q) (fun _ => 0%Q)
                          (with_results (main_configure sample_params) 1
                             (Some (fun _ => 1)) (-1) 2) eq_refl))).
  split; [params_simpl; lia|]. exists (fun _ => 1). split; reflexivity.
Defined.

Lemma main_recommendation_witness :
  recommendations (fst (main_run sample_params solver_ok_locking)) = [L_Text rec_min_matvecs].
Proof.
  rewrite (main_recommendation sample_params solver_ok_locking 0 (fun _ => 1%Q) (fun _ => 0%Q)
             (with_results (main_configure sample_params) 1 (Some (fun _ => 1)) (-1) 2)
             eq_refl).
  reflexivity.
Defined.

(** ** Further properties of the kernels *)

Section MoreLoops.

Variable V : Type.

Lemma loop_to_add k1 k2 (body : mem V -> Z -> mem V) m :
  loop_to (k1 + k2) body m
  = loop_to k2 (fun m j => body m (Z.of_nat k1 + j)) (loop_to k1 body m).
Proof.
  induction k2 as [|k2 IH]; simpl; [now rewrite Nat.add_0_r|].
  rewrite Nat.add_succ_r. simpl. rewrite IH, Nat2Z.inj_add. reflexivity.
Qed.

(** Iterations from [k] on that leave [a] alone do not change it. *)
Lemma loop_to_prefix k k' (body : mem V -> Z -> mem V) m a :
  (k <= k')%nat ->
  (forall m' j, Z.of_nat k <= j < Z.of_nat k' -> body m' j a = m' a) ->
  loop_to k' body m a = loop_to k body m a.
Proof.
  induction k' as [|k' IH]; intros Hk Hb.
  - now replace k with 0%nat by lia.
  - destruct (Nat.eq_dec k (S k')) as [->|Hne]; [reflexivity|].
    simpl. rewrite Hb by lia. apply IH; [lia|]. intros; apply Hb; lia.
Qed.

End MoreLoops.

Section BlockColumn.

Variable V : Type.
Variable nn : Z.
Variable col : Z -> Z -> mem V -> mem V.
Hypothesis col_frame : forall xv yv m a,
  (forall r, 0 <= r < nn -> a <> yv + r) -> col xv yv m a = m a.

(** A cell of output column [i] is the one column [i] left, on the memory
    the earlier columns produced. *)
Lemma block_column x ldx y ldy b m i r :
  ldy >= nn -> 0 <= i < b -> 0 <= r < nn ->
  block col x ldx y ldy b m (y + ldy * i + r)
  = col (x + ldx * i) (y + ldy * i) (block col x ldx y ldy i m) (y + ldy * i + r).
Proof.
  intros Hld Hi Hr. unfold block at 1.
  rewrite (loop_to_at _ _ _ _ _ i) by
    (try lia; intros m' j Hj; apply col_frame; intros r' Hr';
     assert (ldy * (i + 1) <= ldy * j) by (apply Z.mul_le_mono_nonneg_l; lia); lia).
  reflexivity.
Qed.

End BlockColumn.

Section MoreKernelFacts.

Variable V : Type.
Variables (d_zero d_two d_minus_one : V).
Variables (d_add d_mul d_div : V -> V -> V).

Local Abbreviation matvec_row := (matvec_row V d_zero d_two d_minus_one d_add d_mul).
Local Abbreviation matvec_col := (matvec_col V d_zero d_two d_minus_one d_add d_mul).
Local Abbreviation precond_col := (precond_col V d_two d_div).
Local Abbreviation LaplacianMatrixMatvec :=
  (LaplacianMatrixMatvec V d_zero d_two d_minus_one d_add d_mul).
Local Abbreviation LaplacianApplyPreconditioner :=
  (LaplacianApplyPreconditioner V d_two d_div).

(** A row of [LaplacianMatrixMatvec] called in place ([y = x]): the
    assignment [yvec[row] = 0.0] also clears [xvec[row]]. *)
Lemma matvec_row_in_place nn v m r :
  matvec_row nn v v m r (v + r)
  = let a1 := if r - 1 >=? 0 then d_add d_zero (d_mul d_minus_one (m (v + (r - 1))))
              else d_zero in
    let a2 := d_add a1 (d_mul d_two a1) in
    if r + 1 <? nn then d_add a2 (d_mul d_minus_one (m (v + (r + 1)))) else a2.
Proof.
  unfold matvec_row.
  destruct (r - 1 >=? 0), (r + 1 <? nn); rewrite ?upd_same, ?upd_other by lia;
    rewrite ?upd_same, ?upd_other by lia; reflexivity.
Qed.

Lemma precond_col_in_place nn v m r :
  0 <= r < nn -> precond_col nn v v m (v + r) = d_div (m (v + r)) d_two.
Proof.
  intros Hr. unfold precond_col.
  rewrite (loop_to_at _ _ _ _ _ r) by
    (try lia; intros m' j Hj; unfold precond_row; apply upd_other; lia).
  unfold precond_row at 1. rewrite upd_same. f_equal.
  apply loop_to_frame. intros m' j Hj. unfold precond_row. apply upd_other. lia.
Qed.

(** A column of [LaplacianMatrixMatvec] called in place: row [r] ends up
    with a value computed from the final value of row [r-1] and the original
    value of row [r+1]; the original value of row [r] is never used. *)
Lemma matvec_col_in_place nn v m r :
  0 <= r < nn ->
  matvec_col nn v v m (v + r)
  = let a1 := if r - 1 >=? 0
              then d_add d_zero (d_mul d_minus_one (matvec_col nn v v m (v + (r - 1))))
              else d_zero in
    let a2 := d_add a1 (d_mul d_two a1) in
    if r + 1 <? nn then d_add a2 (d_mul d_minus_one (m (v + (r + 1)))) else a2.
Proof.
  intros Hr.
  assert (H1 : r - 1 >= 0 ->
               loop_to (Z.to_nat r) (matvec_row nn v v) m (v + (r - 1))
               = matvec_col nn v v m (v + (r - 1))).
  { intros H. unfold matvec_col. symmetry. apply loop_to_prefix; [lia|].
    intros m' j Hj. apply matvec_row_other. lia. }
  assert (H2 : loop_to (Z.to_nat r) (matvec_row nn v v) m (v + (r + 1)) = m (v + (r + 1))).
  { apply loop_to_frame. intros m' j Hj. apply matvec_row_other. lia. }
  unfold matvec_col at 1.
  rewrite (loop_to_at _ _ _ _ _ r) by
    (try lia; intros m' j Hj; apply matvec_row_other; lia).
  rewrite matvec_row_in_place. cbv zeta. rewrite H2.
  destruct (r - 1 >=? 0) eqn:E1; [|reflexivity].
  rewrite Z.geb_le in E1. rewrite H1 by lia. reflexivity.
Qed.

(** X: both kernels read nothing but the input block: two memories that
    agree on the input block give the same output block, whatever the output
    buffer held before the call. *)
Theorem kernels_read_only_input_block x ldx y ldy b primme (m1 m2 : mem V) :
  ldy >= n primme -> blocks_disjoint (n primme) x ldx y ldy b ->
  (forall j s, 0 <= j < b -> 0 <= s < n primme -> m1 (x + ldx * j + s) = m2 (x + ldx * j + s)) ->
  forall i r, 0 <= i < b -> 0 <= r < n primme ->
    fst (LaplacianMatrixMatvec x ldx y ldy b primme m1) (y + ldy * i + r)
      = fst (LaplacianMatrixMatvec x ldx y ldy b primme m2) (y + ldy * i + r) /\
    fst (LaplacianApplyPreconditioner x ldx y ldy b primme m1) (y + ldy * i + r)
      = fst (LaplacianApplyPreconditioner x ldx y ldy b primme m2) (y + ldy * i + r).
Proof.
  intros Hld Hd Hm i r Hi Hr.
  rewrite !LaplacianMatrixMatvec_value, !LaplacianApplyPreconditioner_value by assumption.
  split.
  - apply lap_val_ext; [|exact Hr]. intros j Hj. apply Hm; lia.
  - rewrite Hm by assumption. reflexivity.
Qed.

(** X: [LaplacianApplyPreconditioner] may be called in place ([y = x],
    [ldy = ldx >= n]): every entry of the block is halved. *)
Theorem precond_in_place x ldx b primme (m : mem V) :
  ldx >= n primme ->
  forall i r, 0 <= i < b -> 0 <= r < n primme ->
    fst (LaplacianApplyPreconditioner x ldx x ldx b primme m) (x + ldx * i + r)
    = d_div (m (x + ldx * i + r)) d_two.
Proof.
  intros Hld i r Hi Hr. rewrite LaplacianApplyPreconditioner_block.
  rewrite (block_column V (n primme)) by (try lia; intros; apply precond_col_frame; auto).
  rewrite precond_col_in_place by exact Hr. f_equal.
  apply (block_frame V (n primme)).
  - intros; apply precond_col_frame; auto.
  - intros j r' Hj Hr'.
    assert (ldx * (j + 1) <= ldx * i) by (apply Z.mul_le_mono_nonneg_l; lia). lia.
Qed.

(** X: a call with block width [b1 + b2] is a call on the first [b1]
    columns followed by a call on the next [b2] columns, for both kernels. *)
Theorem kernels_split_block x ldx y ldy b1 b2 primme (m : mem V) :
  0 <= b1 -> 0 <= b2 ->
  fst (LaplacianMatrixMatvec x ldx y ldy (b1 + b2) primme m)
    = fst (LaplacianMatrixMatvec (x + ldx * b1) ldx (y + ldy * b1) ldy b2 primme
             (fst (LaplacianMatrixMatvec x ldx y ldy b1 primme m))) /\
  fst (LaplacianApplyPreconditioner x ldx y ldy (b1 + b2) primme m)
    = fst (LaplacianApplyPreconditioner (x + ldx * b1) ldx (y + ldy * b1) ldy b2 primme
             (fst (LaplacianApplyPreconditioner x ldx y ldy b1 primme m))).
Proof.
  intros H1 H2. rewrite !LaplacianMatrixMatvec_block, !LaplacianApplyPreconditioner_block.
  unfold block. rewrite Z2Nat.inj_add by lia. rewrite !loop_to_add.
  split; apply loop_to_ext; intros m' j Hj; rewrite Z2Nat.id by lia; f_equal; ring.
Qed.

End MoreKernelFacts.

(** X: [LaplacianMatrixMatvec] called in place ([y = x], [ldy = ldx >= n])
    does not compute the Laplacian: the assignment [yvec[row] = 0.0] clears
    the input before it is read, so row [r] of the result is [-3] times the
    already overwritten row [r-1] minus the original row [r+1] (terms outside
    the column omitted). *)
Theorem matvec_in_place_recurrence x ldx b primme (m : mem Q) :
  ldx >= n primme ->
  forall i r, 0 <= i < b -> 0 <= r < n primme ->
  (fst (LaplacianMatrixMatvecQ x ldx x ldx b primme m) (x + ldx * i + r)%Z
   == (if (r - 1 >=? 0)%Z
       then -3 * fst (LaplacianMatrixMatvecQ x ldx x ldx b primme m) (x + ldx * i + (r - 1))%Z
       else 0)
      + (if (r + 1 <? n primme)%Z then - m (x + ldx * i + (r + 1))%Z else 0))%Q.
Proof.
  intros Hld i r Hi Hr. unfold LaplacianMatrixMatvecQ.
  rewrite LaplacianMatrixMatvec_block.
  set (col := matvec_col Q 0%Q 2%Q (-1)%Q Qplus Qmult (n primme)).
  assert (Hcol : forall r', 0 <= r' < n primme ->
            block col x ldx x ldx b m (x + ldx * i + r')
            = col (x + ldx * i) (x + ldx * i) (block col x ldx x ldx i m) (x + ldx * i + r')).
  { intros r' Hr'. apply (block_column Q (n primme)); try lia.
    intros; apply matvec_col_frame; auto. }
  assert (Hf : forall r', 0 <= r' < n primme ->
            block col x ldx x ldx i m (x + ldx * i + r') = m (x + ldx * i + r')).
  { intros r' Hr'. apply (block_frame Q (n primme)).
    - intros; apply matvec_col_frame; auto.
    - intros j s Hj Hs.
      assert (ldx * (j + 1) <= ldx * i) by (apply Z.mul_le_mono_nonneg_l; lia). lia. }
  rewrite (Hcol r Hr). unfold col at 1. rewrite matvec_col_in_place by exact Hr. cbv zeta.
  destruct (r - 1 >=? 0) eqn:E1; destruct (r + 1 <? n primme) eqn:E2;
    rewrite ?Z.geb_le, ?Z.ltb_lt in *;
    rewrite ?(Hcol (r - 1)), ?(Hf (r + 1)) by lia; unfold col; ring.
Qed.

Lemma lap_val_prefix_sum nn (xr : Z -> Q) k :
  (1 <= k)%nat -> Z.of_nat k <= nn ->
  (sum_to k (fun r => lap_val Q 0 2 (-1) Qplus Qmult nn xr r)
   == xr 0%Z + xr (Z.of_nat k - 1)%Z
      + (if (Z.of_nat k <? nn)%Z then - xr (Z.of_nat k) else 0))%Q.
Proof.
  induction k as [|k IH]; intros Hk Hn; [lia|].
  destruct k as [|k].
  - simpl sum_to. rewrite lap_val_Q. simpl Z.of_nat in *.
    replace (1 - 1) with 0 by ring. replace (0 - 1) with (-1) by ring.
    replace (0 + 1) with 1 by ring. zbool_cases; first [exfalso; lia | ring].
  - cbn [sum_to]. cbn [sum_to] in IH. rewrite IH by lia. rewrite lap_val_Q.
    rewrite !Nat2Z.inj_succ in *. unfold Z.succ in *.
    replace (Z.of_nat k + 1 + 1 - 1) with (Z.of_nat k + 1) by ring.
    replace (Z.of_nat k + 1 - 1) with (Z.of_nat k) by ring.
    zbool_cases; first [exfalso; lia | ring].
Qed.

(** X: the entries of the product computed by [LaplacianMatrixMatvec] sum to
    [x[0] + x[n-1]] for every [n >= 1]: the interior terms cancel and only the
    two boundary rows, where the code skips a neighbour, leave a remainder. *)
Theorem matvec_entries_sum primme (xv : Z -> Q) :
  1 <= n primme ->
  (dot (n primme) (fun _ => 1) (Avec primme xv) == xv 0%Z + xv (n primme - 1)%Z)%Q.
Proof.
  intros Hn. unfold dot.
  rewrite (sum_to_ext _ _ (fun r => lap_val Q 0%Q 2%Q (-1)%Q Qplus Qmult (n primme) xv r)).
  - rewrite lap_val_prefix_sum by lia. rewrite Z2Nat.id by lia.
    rewrite Z.ltb_irrefl. ring.
  - intros r Hr. rewrite Z2Nat.id in Hr by lia.
    rewrite Avec_lap_val by lia. ring.
Qed.

Lemma filter_eval_lines k evals rnorms :
  filter is_eval (eval_lines k evals rnorms)
  = map (fun i => L_Eval (Z.of_nat i + 1) (evals (Z.of_nat i)) (rnorms (Z.of_nat i)))
        (seq 0 k).
Proof.
  induction k as [|k IH]; [reflexivity|].
  simpl eval_lines. rewrite filter_app, IH, seq_S, map_app. reflexivity.
Qed.

(** X: when [dprimme] returns [0], [main] exits with [0] and prints the
    eigenpair lines for [i = 0 .. initSize-1] in this order, each once and no
    others (none when [initSize <= 0]). *)
Theorem main_success_eval_lines init (dprimme : dprimme_fun) evals rnorms p :
  dprimme (main_configure init) = (0, evals, rnorms, p) ->
  snd (main_run init dprimme) = 0 /\
  filter is_eval (fst (main_run init dprimme))
  = map (fun i => L_Eval (Z.of_nat i + 1) (evals (Z.of_nat i)) (rnorms (Z.of_nat i)))
        (seq 0 (Z.to_nat (initSize p))).
Proof.
  intros H. rewrite (main_run_unfold _ _ _ _ _ _ H). unfold main_report. simpl negb.
  cbv iota. split; [reflexivity|].
  cbn [fst]. cbn [filter is_eval]. rewrite filter_app, filter_eval_lines.
  cbn [filter is_eval app]. rewrite filter_app.
  replace (filter is_eval (recommendation_lines (dynamicMethodSwitch p))) with (@nil out_line).
  - destruct (locking_problem p); cbn; rewrite app_nil_r; reflexivity.
  - unfold recommendation_lines.
    destruct (dynamicMethodSwitch p =? -1), (dynamicMethodSwitch p =? -2), (dynamicMethodSwitch p =? -3); reflexivity.
Qed.

(** ** Witnesses of the further properties *)

Lemma kernels_read_only_input_block_witness :
  fst (LaplacianMatrixMatvecQ 0 3 10 3 1 (set_n sample_params 3) (fun a => inject_Z a)) 11
  = fst (LaplacianMatrixMatvecQ 0 3 10 3 1 (set_n sample_params 3)
           (fun a => if a <? 3 then inject_Z a else 0%Q)) 11 /\
  fst (LaplacianApplyPreconditionerQ 0 3 10 3 1 (set_n sample_params 3) (fun a => inject_Z a)) 11
  = fst (LaplacianApplyPreconditionerQ 0 3 10 3 1 (set_n sample_params 3)
           (fun a => if a <? 3 then inject_Z a else 0%Q)) 11.
Proof.
  apply (kernels_read_only_input_block Q 0%Q 2%Q (-1)%Q Qplus Qmult Qdiv 0 3 10 3 1
           (set_n sample_params 3) (fun a => inject_Z a)
           (fun a => if a <? 3 then inject_Z a else 0%Q)
           ltac:(params_simpl; lia)
           ltac:(unfold blocks_disjoint; params_simpl; intros; lia)
           ltac:(intros j s Hj Hs; cbn [n set_n with_config] in Hs;
                 cbv beta; rewrite (proj2 (Z.ltb_lt _ _)) by lia; reflexivity)
           0 1 ltac:(lia) ltac:(params_simpl; lia)).
Defined.

Lemma precond_in_place_witness :
  fst (LaplacianApplyPreconditionerQ 0 3 0 3 2 (set_n sample_params 3) (fun a => inject_Z a)) 5
  = Qdiv (inject_Z 5) 2.
Proof.
  exact (precond_in_place Q 2%Q Qdiv 0 3 2 (set_n sample_params 3) (fun a => inject_Z a)
           ltac:(params_simpl; lia) 1 2 ltac:(lia) ltac:(params_simpl; lia)).
Defined.

Lemma kernels_split_block_witness :
  fst (LaplacianMatrixMatvecQ 0 3 10 3 2 (set_n sample_params 3) (fun a => inject_Z a))
  = fst (LaplacianMatrixMatvecQ 3 3 13 3 1 (set_n sample_params 3)
           (fst (LaplacianMatrixMatvecQ 0 3 10 3 1 (set_n sample_params 3)
                   (fun a => inject_Z a)))) /\
  fst (LaplacianApplyPreconditionerQ 0 3 10 3 2 (set_n sample_params 3) (fun a => inject_Z a))
  = fst (LaplacianApplyPreconditionerQ 3 3 13 3 1 (set_n sample_params 3)
           (fst (LaplacianApplyPreconditionerQ 0 3 10 3 1 (set_n sample_params 3)
                   (fun a => inject_Z a)))).
Proof.
  exact (kernels_split_block Q 0%Q 2%Q (-1)%Q Qplus Qmult Qdiv 0 3 10 3 1 1
           (set_n sample_params 3) (fun a => inject_Z a) ltac:(lia) ltac:(lia)).
Defined.

Lemma matvec_in_place_recurrence_witness :
  (fst (LaplacianMatrixMatvecQ 0 3 0 3 1 (set_n sample_params 3) (fun a => inject_Z a)) 1%Z
   == -3 * fst (LaplacianMatrixMatvecQ 0 3 0 3 1 (set_n sample_params 3)
                  (fun a => inject_Z a)) 0%Z - inject_Z 2)%Q.
Proof.
  pose proof (matvec_in_place_recurrence 0 3 1 (set_n sample_params 3) (fun a => inject_Z a)
                ltac:(params_simpl; lia) 0 1 ltac:(lia) ltac:(params_simpl; lia)) as H.
  eapply Qeq_trans; [exact H|]. vm_compute. reflexivity.
Defined.

Lemma matvec_entries_sum_witness :
  (dot (n (set_n sample_params 3)) (fun _ => 1%Q)
       (Avec (set_n sample_params 3) (fun j => inject_Z j))
   == inject_Z 0 + inject_Z (n (set_n sample_params 3) - 1))%Q.
Proof.
  exact (matvec_entries_sum (set_n sample_params 3) (fun j => inject_Z j)
           ltac:(params_simpl; lia)).
Defined.

Lemma main_success_eval_lines_witness :
  snd (main_run sample_params solver_ok_locking) = 0 /\
  filter is_eval (fst (main_run sample_params solver_ok_locking))
  = [L_Eval 1 1%Q 0%Q; L_Eval 2 1%Q 0%Q].
Proof.
  exact (main_success_eval_lines sample_params solver_ok_locking (fun _ => 1%Q) (fun _ => 0%Q)
           (with_results (main_configure sample_params) 1 (Some (fun _ => 1)) (-1) 2) eq_refl).
Defined.
